(** * A shallow embedding of g2o's [SparseOptimizer] (g2o/core/sparse_optimizer.h)

    The header declares the optimizer's interface; of its bodies only
    [terminate()] is given inline.  The remaining operations
    ([initializeOptimization], [buildIndexMapping], [push]/[pop]/[discardTop],
    [computeActiveErrors], [update], [optimize], [computeMarginals]) live in
    sparse_optimizer.cpp, which is not part of the sources at hand: they are
    modelled below from the specification of the optimizer core, each such
    definition being marked as such.

    Vertices are kept in a [gmap] keyed by their ID (a vertex pointer is
    identified with its ID); a vertex carries its fixed flag, its dimension,
    its estimate (a vector of [Z]), its private estimate stack and its
    Hessian (block) index, -1 when inactive. *)

From Stdlib Require Import ZArith.
From stdpp Require Import base list gmap sorting.

(* ------------------------------------------------------------------ *)
(** ** Data model *)

Record Vertex := mkVertex {
  v_fixed : bool;
  v_dim : nat;
  v_estimate : list Z;
  v_stack : list (list Z);
  v_hessianIndex : Z
}.

Record Edge := mkEdge {
  e_id : Z;
  e_level : Z;
  e_vertices : list Z
}.

(** A raw C++ pointer to a [bool] owned by the caller: [None] is [NULL]. *)
Definition loc := Z.

Record SparseOptimizer := mkSparseOptimizer {
  _vertices : gmap Z Vertex;           (* the graph's vertices *)
  _edges : gmap Z Edge;                (* the graph's edges *)
  _forceStopFlag : option loc;
  _ivMap : list Z;
  _activeVertices : list Z;            (* sorted according to VertexIDCompare *)
  _activeEdges : list Edge;            (* sorted according to EdgeIDCompare *)
  _activeChi2 : Z;                     (* the Cached Active Error *)
  _jacobians : list (list (Z * list Z));
  _statistics : option nat;
  _computeErrorActions : list Z;
  _actionLog : list Z
}.

Definition set_hessianIndex (i : Z) (v : Vertex) : Vertex :=
  mkVertex (v_fixed v) (v_dim v) (v_estimate v) (v_stack v) i.

Definition set_estimate (x : list Z) (v : Vertex) : Vertex :=
  mkVertex (v_fixed v) (v_dim v) x (v_stack v) (v_hessianIndex v).

Definition set_stack (s : list (list Z)) (v : Vertex) : Vertex :=
  mkVertex (v_fixed v) (v_dim v) (v_estimate v) s (v_hessianIndex v).

Definition with_vertices (m : gmap Z Vertex) (o : SparseOptimizer) : SparseOptimizer :=
  mkSparseOptimizer m (_edges o) (_forceStopFlag o) (_ivMap o) (_activeVertices o)
    (_activeEdges o) (_activeChi2 o) (_jacobians o) (_statistics o)
    (_computeErrorActions o) (_actionLog o).

Definition with_active (m : gmap Z Vertex) (iv av : list Z) (ae : list Edge)
    (o : SparseOptimizer) : SparseOptimizer :=
  mkSparseOptimizer m (_edges o) (_forceStopFlag o) iv av ae (_activeChi2 o)
    (_jacobians o) (_statistics o) (_computeErrorActions o) (_actionLog o).

(** Observers used in the statements. *)
Definition estimate_of (o : SparseOptimizer) (v : Z) : option (list Z) :=
  v_estimate <$> _vertices o !! v.

Definition hessianIndex_of (o : SparseOptimizer) (v : Z) : option Z :=
  v_hessianIndex <$> _vertices o !! v.

Definition stack_depth (o : SparseOptimizer) (v : Z) : option nat :=
  (λ vr, length (v_stack vr)) <$> _vertices o !! v.

(* ------------------------------------------------------------------ *)
(** ** Index Mapping Builder *)

(** Edge order of [EdgeIDCompare]. *)
Definition edge_le (a b : Edge) : Prop := (e_id a ≤ e_id b)%Z.
#[global] Instance edge_le_dec : RelDecision edge_le :=
  λ a b, decide (e_id a ≤ e_id b)%Z.

Definition is_free (m : gmap Z Vertex) (v : Z) : bool :=
  match m !! v with Some vr => negb (v_fixed vr) | None => false end.

Definition is_present (m : gmap Z Vertex) (v : Z) : bool :=
  bool_decide (is_Some (m !! v)).

(** An edge references a vertex that is not in the graph. *)
Definition edge_dangling (m : gmap Z Vertex) (e : Edge) : bool :=
  existsb (λ v, negb (is_present m v)) (e_vertices e).

(** Modelled from the spec: [clearIndexMapping] (sparse_optimizer.cpp):
    the vertices of the previous index map lose their block index. *)
Definition clearIndexMapping (o : SparseOptimizer) : gmap Z Vertex :=
  foldl (λ m v, alter (set_hessianIndex (-1)) v m) (_vertices o) (_ivMap o).

(** Modelled from the spec: [buildIndexMapping] (sparse_optimizer.cpp):
    walking the (ID-sorted) list, every non-fixed vertex receives the next
    contiguous block index and is appended to the index map; a fixed vertex
    gets -1; a vertex absent from the graph is an inconsistency. *)
Fixpoint buildIndexMapping (m : gmap Z Vertex) (vlist : list Z) (i : nat)
    : option (gmap Z Vertex * list Z) :=
  match vlist with
  | [] => Some (m, [])
  | v :: vl =>
      match m !! v with
      | None => None
      | Some vr =>
          if v_fixed vr then
            buildIndexMapping (<[v := set_hessianIndex (-1) vr]> m) vl i
          else
            match buildIndexMapping (<[v := set_hessianIndex (Z.of_nat i) vr]> m) vl (S i) with
            | None => None
            | Some (m', iv) => Some (m', v :: iv)
            end
      end
  end.

(** Modelled from the spec: the step all three [initializeOptimization]
    overloads funnel into.  [edges] is the Active Edge Set, [verts] the
    candidate active vertices in the caller's iteration order.  On any
    failure the optimizer is returned as it was. *)
Definition activate (o : SparseOptimizer) (edges : list Edge) (verts : list Z)
    : bool * SparseOptimizer :=
  if existsb (edge_dangling (_vertices o)) edges then (false, o)
  else
    let av := merge_sort Z.le verts in
    match av with
    | [] => (false, o)
    | _ =>
        match buildIndexMapping (clearIndexMapping o) av 0 with
        | None => (false, o)
        | Some (m, iv) => (true, with_active m iv av (merge_sort edge_le edges) o)
        end
    end.

(** Candidate vertices of an edge set: the non-fixed vertices it references. *)
Definition eset_vertices (o : SparseOptimizer) (eset : list Edge) : list Z :=
  filter (λ v, is_free (_vertices o) v = true) (remove_dups (eset ≫= e_vertices)).

(** Modelled from the spec: [initializeOptimization(EdgeSet&)]. *)
Definition initializeOptimization_eset (o : SparseOptimizer) (eset : list Edge)
    : bool * SparseOptimizer :=
  activate o eset (eset_vertices o eset).

(** Active edges for a vertex set at a level: the graph's edges at that
    level all of whose vertices were requested. *)
Definition vset_edge_ok (vset : list Z) (level : Z) (e : Edge) : Prop :=
  e_level e = level ∧ Forall (λ v, v ∈ vset) (e_vertices e).

Definition vset_edges (o : SparseOptimizer) (vset : list Z) (level : Z) : list Edge :=
  filter (vset_edge_ok vset level) (map snd (map_to_list (_edges o))).

(** A requested vertex stays active when it is free and has an active edge. *)
Definition vset_vertex_ok (o : SparseOptimizer) (vset : list Z) (level : Z) (v : Z) : Prop :=
  is_free (_vertices o) v = true ∧ Exists (λ e, v ∈ e_vertices e) (vset_edges o vset level).

Definition vset_vertices (o : SparseOptimizer) (vset : list Z) (level : Z) : list Z :=
  filter (vset_vertex_ok o vset level) vset.

(** Modelled from the spec: [initializeOptimization(VertexSet&, int level)];
    [vset] is the set in its iteration order. *)
Definition initializeOptimization_vset (o : SparseOptimizer) (vset : list Z) (level : Z)
    : bool * SparseOptimizer :=
  activate o (vset_edges o vset level) (vset_vertices o vset level).

(** Modelled from the spec: [initializeOptimization(int level)], the whole
    graph at a level. *)
Definition initializeOptimization (o : SparseOptimizer) (level : Z) : bool * SparseOptimizer :=
  initializeOptimization_vset o (map fst (map_to_list (_vertices o))) level.

(* ------------------------------------------------------------------ *)
(** ** Estimate Stack *)

(** Modelled from the spec: the per-vertex part of [push], [pop] and
    [discardTop] (OptimizableGraph::Vertex, not in the sources at hand). *)
Definition push_vertex (vr : Vertex) : Vertex :=
  set_stack (v_estimate vr :: v_stack vr) vr.

Definition pop_vertex (vr : Vertex) : Vertex :=
  match v_stack vr with
  | x :: s => set_stack s (set_estimate x vr)
  | [] => vr
  end.

Definition discardTop_vertex (vr : Vertex) : Vertex :=
  match v_stack vr with
  | _ :: s => set_stack s vr
  | [] => vr
  end.

Definition for_each_vertex (f : Vertex → Vertex) (vlist : list Z) (o : SparseOptimizer)
    : SparseOptimizer :=
  with_vertices (foldl (λ m v, alter f v m) (_vertices o) vlist) o.

(** Modelled from the spec: [push(VertexContainer&)], [push(VertexSet&)]. *)
Definition push (vlist : list Z) (o : SparseOptimizer) : SparseOptimizer :=
  for_each_vertex push_vertex vlist o.

(** Modelled from the spec: [pop(VertexContainer&)], [pop(VertexSet&)]. *)
Definition pop (vlist : list Z) (o : SparseOptimizer) : SparseOptimizer :=
  for_each_vertex pop_vertex vlist o.

(** Modelled from the spec: [discardTop(VertexContainer&)]. *)
Definition discardTop (vlist : list Z) (o : SparseOptimizer) : SparseOptimizer :=
  for_each_vertex discardTop_vertex vlist o.

(** The no-argument forms act on the active vertices. *)
Definition push_active (o : SparseOptimizer) : SparseOptimizer := push (_activeVertices o) o.
Definition pop_active (o : SparseOptimizer) : SparseOptimizer := pop (_activeVertices o) o.
Definition discardTop_active (o : SparseOptimizer) : SparseOptimizer :=
  discardTop (_activeVertices o) o.

(* ------------------------------------------------------------------ *)
(** ** Linearization Engine *)

(** The Graph Model's per-edge evaluation (external collaborators). *)
Class EdgeModel := {
  computeError : Edge → gmap Z Vertex → list Z;
  linearizeOplus : Edge → gmap Z Vertex → list (list Z);
  robustify : Z → Z
}.

Definition squaredNorm (x : list Z) : Z := foldr (λ a acc, a * a + acc)%Z 0%Z x.

(** Modelled from the spec: [computeActiveErrors()]: the pre-error
    callbacks run first, in registration order (they only observe; their
    invocations are logged), the statistics record (when present) is
    updated, and the robustified chi-square of every active edge is summed
    into the Cached Active Error. *)
Definition computeActiveErrors `{EdgeModel} (o : SparseOptimizer) : SparseOptimizer :=
  let log := _actionLog o ++ _computeErrorActions o in
  let stats := S <$> _statistics o in
  let chi2 := foldl (λ acc e, acc + robustify (squaredNorm (computeError e (_vertices o))))%Z
                0%Z (_activeEdges o) in
  mkSparseOptimizer (_vertices o) (_edges o) (_forceStopFlag o) (_ivMap o)
    (_activeVertices o) (_activeEdges o) chi2 (_jacobians o) stats
    (_computeErrorActions o) log.

(** [activeChi2()]: the cached value. *)
Definition activeChi2 (o : SparseOptimizer) : Z := _activeChi2 o.

(** Modelled from the spec: [linearizeSystem()]: for each active edge, the
    Jacobian block of each non-fixed vertex placed at its block index. *)
Definition linearizeSystem `{EdgeModel} (o : SparseOptimizer) : SparseOptimizer :=
  let place (e : Edge) : list (Z * list Z) :=
    filter (λ p, (0 ≤ p.1)%Z)
      (zip (map (λ v, default (-1)%Z (hessianIndex_of o v)) (e_vertices e))
           (linearizeOplus e (_vertices o))) in
  mkSparseOptimizer (_vertices o) (_edges o) (_forceStopFlag o) (_ivMap o)
    (_activeVertices o) (_activeEdges o) (_activeChi2 o) (map place (_activeEdges o))
    (_statistics o) (_computeErrorActions o) (_actionLog o).

(** Additive [oplus] of a vertex: increments past the estimate's end are
    ignored, missing ones leave the coordinate as it is. *)
Fixpoint vadd (x d : list Z) : list Z :=
  match x, d with
  | a :: x', b :: d' => (a + b)%Z :: vadd x' d'
  | _, _ => x
  end.

Fixpoint update_from (m : gmap Z Vertex) (iv : list Z) (dx : list Z) : gmap Z Vertex :=
  match iv with
  | [] => m
  | v :: iv' =>
      match m !! v with
      | Some vr =>
          update_from (<[v := set_estimate (vadd (v_estimate vr) (take (v_dim vr) dx)) vr]> m)
            iv' (drop (v_dim vr) dx)
      | None => update_from m iv' dx
      end
  end.

(** Modelled from the spec: [update(const double* update)]: the increment
    is stacked by block index, each vertex consuming [dim] entries. *)
Definition update (dx : list Z) (o : SparseOptimizer) : SparseOptimizer :=
  with_vertices (update_from (_vertices o) (_ivMap o) dx) o.

(* ------------------------------------------------------------------ *)
(** ** Force-stop flag *)

(** Dereferencing a raw pointer into the caller's memory. *)
Inductive Fault := NullDereference | DanglingPointer.

Definition deref (mem : gmap loc bool) (p : option loc) : Fault + bool :=
  match p with
  | None => inl NullDereference
  | Some l => match mem !! l with Some b => inr b | None => inl DanglingPointer end
  end.

Definition is_nonnull (p : option loc) : bool :=
  match p with Some _ => true | None => false end.

(** [bool terminate() {return _forceStopFlag ? ( *_forceStopFlag) : false; }] *)
Definition terminate (mem : gmap loc bool) (o : SparseOptimizer) : Fault + bool :=
  if is_nonnull (_forceStopFlag o) then deref mem (_forceStopFlag o) else inr false.

(** Modelled from the spec: [setForceStopFlag(bool* flag)]. *)
Definition setForceStopFlag (flag : option loc) (o : SparseOptimizer) : SparseOptimizer :=
  mkSparseOptimizer (_vertices o) (_edges o) flag (_ivMap o) (_activeVertices o)
    (_activeEdges o) (_activeChi2 o) (_jacobians o) (_statistics o)
    (_computeErrorActions o) (_actionLog o).

(* ------------------------------------------------------------------ *)
(** ** Solving Strategy and Optimization Driver *)

Inductive SolverResult := SolverOK | SolverFail | SolverDegenerate.

(** A sparse block matrix: blocks indexed by (row, column) block indices. *)
Definition BlockMatrix := gmap (Z * Z) (list Z).

(** The pluggable [OptimizationAlgorithm] (external): one solve step maps
    the iteration number, the [online] flag and the linearized optimizer to
    an outcome and an increment; the marginal-block extraction is an
    optional capability. *)
Record OptimizationAlgorithm := mkOptimizationAlgorithm {
  alg_solve : nat → bool → SparseOptimizer → SolverResult * list Z;
  alg_computeMarginals : option (BlockMatrix → list (Z * Z) → option BlockMatrix)
}.

(** Modelled from the spec: one iteration of the [optimize] loop: compute
    the active errors, linearize, delegate to the strategy, and on success
    apply the increment and (unless [online]) recompute the errors. *)
Definition optimize_iteration `{EdgeModel} (alg : OptimizationAlgorithm) (online : bool)
    (i : nat) (o : SparseOptimizer) : SolverResult * SparseOptimizer :=
  let o1 := linearizeSystem (computeActiveErrors o) in
  match alg_solve alg i online o1 with
  | (SolverOK, dx) =>
      let o2 := update dx o1 in
      (SolverOK, if online then o2 else computeActiveErrors o2)
  | (r, _) => (r, o1)
  end.

(** Modelled from the spec: the [optimize] loop.  [mem i] is the caller's
    memory when the stop flag is polled before iteration [i]; the loop
    stops when the budget is exhausted, the flag reads true, or the
    strategy does not report success (that iteration counts as executed). *)
Fixpoint optimize_loop `{EdgeModel} (alg : OptimizationAlgorithm) (online : bool)
    (mem : nat → gmap loc bool) (fuel i : nat) (o : SparseOptimizer)
    : Fault + (nat * SparseOptimizer) :=
  match fuel with
  | O => inr (i, o)
  | S fuel' =>
      match terminate (mem i) o with
      | inl f => inl f
      | inr true => inr (i, o)
      | inr false =>
          match optimize_iteration alg online i o with
          | (SolverOK, o') => optimize_loop alg online mem fuel' (S i) o'
          | (_, o') => inr (S i, o')
          end
      end
  end.

(** Modelled from the spec: [int optimize(int iterations, bool online)],
    returning the number of iterations executed. *)
Definition optimize `{EdgeModel} (alg : OptimizationAlgorithm) (iterations : Z)
    (online : bool) (mem : nat → gmap loc bool) (o : SparseOptimizer)
    : Fault + (Z * SparseOptimizer) :=
  match optimize_loop alg online mem (Z.to_nat iterations) 0 o with
  | inl f => inl f
  | inr (n, o') => inr (Z.of_nat n, o')
  end.

(** Modelled from the spec: [computeMarginals(spinv, blockIndices)]: asks
    the strategy for the blocks of the inverse; fails when the strategy has
    no such capability or reports failure. *)
Definition computeMarginals (alg : OptimizationAlgorithm) (spinv : BlockMatrix)
    (blockIndices : list (Z * Z)) : bool * BlockMatrix :=
  match alg_computeMarginals alg with
  | None => (false, spinv)
  | Some extract =>
      match extract spinv blockIndices with
      | Some r => (true, r)
      | None => (false, spinv)
      end
  end.

(* ------------------------------------------------------------------ *)
(** ** A concrete graph *)

(** Vertices 1, 3 and 7 are free, vertex 2 is fixed; edge 10 joins 3 and 1,
    edge 11 joins 2 and 3, both at level 0; vertex 7 has no edge. *)
Definition ex_vertex (fixed : bool) : Vertex := mkVertex fixed 1 [5%Z] [] (-1)%Z.

Definition ex_graph : SparseOptimizer :=
  mkSparseOptimizer
    (<[3%Z := ex_vertex false]> (<[1%Z := ex_vertex false]>
      (<[2%Z := ex_vertex true]> (<[7%Z := ex_vertex false]> ∅))))
    (<[10%Z := mkEdge 10 0 [3; 1]%Z]> (<[11%Z := mkEdge 11 0 [2; 3]%Z]> ∅))
    None [] [] [] 0%Z [] None [] [].

(** The optimizer of [ex_graph] after initialization at level 0. *)
Definition ex_optimizer : SparseOptimizer := snd (initializeOptimization ex_graph 0).

(** A concrete edge model: the error of an edge is the list of the first
    coordinates of its vertices' estimates, no robust kernel. *)
#[local] Instance ex_edge_model : EdgeModel := {
  computeError e m := map (λ v, default 0%Z (head (default [] (v_estimate <$> m !! v))))
                         (e_vertices e);
  linearizeOplus e m := map (λ _, [1%Z]) (e_vertices e);
  robustify x := x
}.

Definition active_dimension (o : SparseOptimizer) : nat :=
  sum_list (map (λ v, default 0 (v_dim <$> _vertices o !! v)) (_ivMap o)).

(** A strategy that always succeeds with the all-zero increment and has no
    marginal-block extraction. *)
Definition zero_algorithm : OptimizationAlgorithm :=
  mkOptimizationAlgorithm (λ _ _ o, (SolverOK, replicate (active_dimension o) 0%Z)) None.

(** A strategy that always succeeds with increment one per coordinate. *)
Definition unit_algorithm : OptimizationAlgorithm :=
  mkOptimizationAlgorithm (λ _ _ o, (SolverOK, replicate (active_dimension o) 1%Z)) None.

(** Caller memory: the flag cell 0 is false at the first poll, true after. *)
Definition ex_stop_after_first (i : nat) : gmap loc bool :=
  {[ 0%Z := bool_decide (1 ≤ i)%nat ]}.

(* ================================================================== *)
(** * Proofs *)

(** ** Index mapping *)

Lemma is_free_alter_hessianIndex (m : gmap Z Vertex) (i v w : Z) :
  is_free (alter (set_hessianIndex i) v m) w = is_free m w.
Proof.
  unfold is_free. rewrite lookup_alter.
  case_decide; subst; [|done]. by destruct (m !! w).
Qed.

Lemma is_free_clearIndexMapping (o : SparseOptimizer) (w : Z) :
  is_free (clearIndexMapping o) w = is_free (_vertices o) w.
Proof.
  unfold clearIndexMapping. generalize (_vertices o). induction (_ivMap o) as [|v l IH];
    intros m; [done|]. simpl. by rewrite IH, is_free_alter_hessianIndex.
Qed.

Lemma buildIndexMapping_free (vl : list Z) (m : gmap Z Vertex) (i : nat) :
  NoDup vl → (∀ v, v ∈ vl → is_free m v = true) →
  ∃ m', buildIndexMapping m vl i = Some (m', vl) ∧
    (∀ k v, vl !! k = Some v → v_hessianIndex <$> m' !! v = Some (Z.of_nat (i + k))) ∧
    (∀ w, w ∉ vl → m' !! w = m !! w).
Proof.
  revert m i. induction vl as [|v vl IH]; intros m i Hnd Hfree.
  - exists m. split; [done|]. split; [|done]. intros k v Hk. by rewrite lookup_nil in Hk.
  - apply NoDup_cons in Hnd as [Hv Hnd].
    assert (Hfv := Hfree v ltac:(left)). unfold is_free in Hfv.
    destruct (m !! v) as [vr|] eqn:Hmv; [|discriminate].
    destruct (v_fixed vr) eqn:Hfix; [discriminate|].
    destruct (IH (<[v := set_hessianIndex (Z.of_nat i) vr]> m) (S i)) as (m' & Hb & Hidx & Hframe); [done| |].
    { intros w Hw. unfold is_free. rewrite lookup_insert_ne by (intros ->; done).
      apply Hfree. by right. }
    exists m'. simpl. rewrite Hmv, Hfix, Hb. split; [done|]. split.
    + intros [|k] w Hk; simpl in Hk.
      * injection Hk as <-. rewrite Hframe by done.
        rewrite lookup_insert_eq. simpl. f_equal. lia.
      * rewrite (Hidx k w Hk). f_equal. lia.
    + intros w Hw. rewrite Hframe by (intros ?; apply Hw; by right).
      rewrite lookup_insert_ne; [done|]. intros ->. apply Hw. by left.
Qed.

Lemma sorted_le_nodup_lt (l : list Z) :
  Sorted Z.le l → NoDup l → StronglySorted Z.lt l.
Proof.
  intros Hs Hnd. apply Sorted_StronglySorted in Hs; [|apply _].
  induction Hs as [|x l Hs IH Hall]; constructor.
  - apply IH. by apply NoDup_cons in Hnd as [_ ?].
  - apply NoDup_cons in Hnd as [Hx _]. rewrite Forall_forall in Hall |- *.
    intros y Hy. specialize (Hall y Hy).
    assert (x ≠ y) by (intros ->; by apply Hx). lia.
Qed.

Lemma merge_sort_Z_perm (l1 l2 : list Z) :
  l1 ≡ₚ l2 → merge_sort Z.le l1 = merge_sort Z.le l2.
Proof.
  intros Hp. apply (Sorted_unique Z.le).
  - apply (Sorted_merge_sort Z.le).
  - apply (Sorted_merge_sort Z.le).
  - by rewrite !(merge_sort_Permutation Z.le).
Qed.

Lemma activate_perm (o : SparseOptimizer) (edges : list Edge) (l1 l2 : list Z) :
  l1 ≡ₚ l2 → activate o edges l1 = activate o edges l2.
Proof. intros Hp. unfold activate. by rewrite (merge_sort_Z_perm l1 l2 Hp). Qed.

Lemma vset_edges_perm (o : SparseOptimizer) (vset vset' : list Z) (level : Z) :
  vset' ≡ₚ vset → vset_edges o vset' level = vset_edges o vset level.
Proof.
  intros Hp. unfold vset_edges. apply list_filter_iff. intros e.
  unfold vset_edge_ok. rewrite !Forall_forall. by setoid_rewrite Hp.
Qed.

Lemma vset_vertices_perm (o : SparseOptimizer) (vset vset' : list Z) (level : Z) :
  vset' ≡ₚ vset → vset_vertices o vset' level ≡ₚ vset_vertices o vset level.
Proof.
  intros Hp. unfold vset_vertices.
  rewrite (list_filter_iff (vset_vertex_ok o vset' level) (vset_vertex_ok o vset level)).
  - by rewrite Hp.
  - intros v. unfold vset_vertex_ok. by rewrite (vset_edges_perm o vset vset' level Hp).
Qed.

Lemma initializeOptimization_vset_perm (o : SparseOptimizer) (vset vset' : list Z) (level : Z) :
  vset' ≡ₚ vset → initializeOptimization_vset o vset' level = initializeOptimization_vset o vset level.
Proof.
  intros Hp. unfold initializeOptimization_vset.
  rewrite (vset_edges_perm o vset vset' level Hp).
  by apply activate_perm, vset_vertices_perm.
Qed.

Lemma activate_failure (o : SparseOptimizer) (edges : list Edge) (verts : list Z) :
  (Exists (λ e, Exists (λ v, _vertices o !! v = None) (e_vertices e)) edges ∨ verts = []) →
  activate o edges verts = (false, o).
Proof.
  intros [Hd| ->]; unfold activate.
  - replace (existsb (edge_dangling (_vertices o)) edges) with true; [done|].
    symmetry. apply existsb_exists. apply Exists_exists in Hd as (e & He & Hv).
    exists e. split; [by apply list_elem_of_In|].
    apply existsb_exists. apply Exists_exists in Hv as (v & Hv & Hn).
    exists v. split; [by apply list_elem_of_In|].
    unfold is_present. rewrite Hn. done.
  - by destruct (existsb _ _).
Qed.

Lemma activate_atomic (o : SparseOptimizer) (edges : list Edge) (verts : list Z) :
  fst (activate o edges verts) = false → snd (activate o edges verts) = o.
Proof.
  unfold activate. destruct (existsb _ _); [done|]. cbv zeta.
  destruct (merge_sort Z.le verts); [done|].
  destruct (buildIndexMapping _ _ _) as [[m iv]|]; done.
Qed.

(** [C1] (as amended) Building the Active Vertex Set from a vertex set [vset]
    (a set: no duplicates) at a level, when it succeeds, gives the index map
    equal to the Active Vertex Set, in strictly ascending ID order; the
    vertex at position [k] has block index [k], so indices are unique and
    contiguous in [0, |active|); the vertices receiving an index are exactly
    the free vertices of [vset] with an active edge; and the whole result is
    the same for every permutation of [vset]'s iteration order. *)
Theorem initializeOptimization_vset_block_indices (o : SparseOptimizer) (vset : list Z)
    (level : Z) (o' : SparseOptimizer)
    (Hnd : NoDup vset) (Hok : initializeOptimization_vset o vset level = (true, o')) :
  _activeVertices o' = _ivMap o' ∧
  StronglySorted Z.lt (_ivMap o') ∧
  NoDup (_ivMap o') ∧
  (∀ k v, _ivMap o' !! k = Some v → hessianIndex_of o' v = Some (Z.of_nat k)) ∧
  (∀ v, v ∈ _ivMap o' ↔ v ∈ vset ∧ vset_vertex_ok o vset level v) ∧
  (∀ vset', vset' ≡ₚ vset → initializeOptimization_vset o vset' level = (true, o')).
Proof.
  set (verts := vset_vertices o vset level).
  assert (Hp : merge_sort Z.le verts ≡ₚ verts) by apply (merge_sort_Permutation Z.le).
  assert (Hndv : NoDup (merge_sort Z.le verts)) by (rewrite Hp; by apply NoDup_filter).
  assert (Hmem : ∀ v, v ∈ merge_sort Z.le verts ↔ v ∈ vset ∧ vset_vertex_ok o vset level v).
  { intros v. rewrite Hp. unfold verts, vset_vertices. rewrite list_elem_of_filter. tauto. }
  assert (Hfree : ∀ v, v ∈ merge_sort Z.le verts → is_free (clearIndexMapping o) v = true).
  { intros v Hv. rewrite is_free_clearIndexMapping. apply Hmem in Hv as [_ [? _]]. done. }
  destruct (buildIndexMapping_free _ (clearIndexMapping o) 0 Hndv Hfree) as (m' & Hb & Hidx & _).
  assert (Hsorted : Sorted Z.le (merge_sort Z.le verts)) by apply (Sorted_merge_sort Z.le).
  pose proof (initializeOptimization_vset_perm o vset) as Hperm.
  pose proof Hok as Hok0.
  unfold initializeOptimization_vset, activate in Hok. fold verts in Hok.
  destruct (existsb _ _); [discriminate|]. cbv zeta in Hok. rewrite Hb in Hok.
  destruct (merge_sort Z.le verts) as [|z l] eqn:Hms; [discriminate|].
  injection Hok as <-. simpl.
  split; [done|]. split; [by apply sorted_le_nodup_lt|]. split; [done|]. split; [|split].
  - intros k v Hk. unfold hessianIndex_of. simpl. by rewrite (Hidx k v Hk).
  - exact Hmem.
  - intros vset' Hp'. by rewrite (Hperm vset' level Hp').
Qed.

Lemma initializeOptimization_vset_block_indices_witness :
  NoDup [7; 3; 2; 1]%Z ∧
  fst (initializeOptimization_vset ex_graph [7; 3; 2; 1]%Z 0) = true ∧
  StronglySorted Z.lt (_ivMap (snd (initializeOptimization_vset ex_graph [7; 3; 2; 1]%Z 0))).
Proof.
  split; [apply (bool_decide_unpack (NoDup [7; 3; 2; 1]%Z)); vm_compute; exact I|]. split; [reflexivity|].
  apply (initializeOptimization_vset_block_indices ex_graph [7; 3; 2; 1]%Z 0
           (snd (initializeOptimization_vset ex_graph [7; 3; 2; 1]%Z 0))); [apply (bool_decide_unpack (NoDup [7; 3; 2; 1]%Z)); vm_compute; exact I|reflexivity].
Defined.

(** [C1] counterexample: vertex 7 of the requested set [{7, 3, 2, 1}] is
    free, yet initialization succeeds and gives it no block index: it has
    no edge at the level, so it is not in the Active Vertex Set. *)
Lemma initializeOptimization_vset_free_vertex_without_index :
  NoDup [7; 3; 2; 1]%Z ∧
  is_free (_vertices ex_graph) 7 = true ∧
  fst (initializeOptimization_vset ex_graph [7; 3; 2; 1]%Z 0) = true ∧
  _ivMap (snd (initializeOptimization_vset ex_graph [7; 3; 2; 1]%Z 0)) = [1; 3]%Z ∧
  hessianIndex_of (snd (initializeOptimization_vset ex_graph [7; 3; 2; 1]%Z 0)) 7 = Some (-1)%Z.
Proof. split; [apply (bool_decide_unpack (NoDup [7; 3; 2; 1]%Z)); vm_compute; exact I|]. repeat split; reflexivity. Qed.

(** [C2] [initializeOptimization] over an edge set or over a vertex set
    fails, returning the optimizer unchanged (Active Vertex/Edge Sets and
    index map included), when an active edge references a vertex absent
    from the graph or when no vertex would be active; and whenever it fails
    it leaves the optimizer unchanged. *)
Theorem initializeOptimization_fails_without_mutation (o : SparseOptimizer)
    (eset : list Edge) (vset : list Z) (level : Z) :
  ((Exists (λ e, Exists (λ v, _vertices o !! v = None) (e_vertices e)) eset
      ∨ eset_vertices o eset = []) →
     initializeOptimization_eset o eset = (false, o)) ∧
  (fst (initializeOptimization_eset o eset) = false →
     snd (initializeOptimization_eset o eset) = o) ∧
  ((Exists (λ e, Exists (λ v, _vertices o !! v = None) (e_vertices e)) (vset_edges o vset level)
      ∨ vset_vertices o vset level = []) →
     initializeOptimization_vset o vset level = (false, o)) ∧
  (fst (initializeOptimization_vset o vset level) = false →
     snd (initializeOptimization_vset o vset level) = o).
Proof.
  split; [apply activate_failure|]. split; [apply activate_atomic|].
  split; [apply activate_failure|apply activate_atomic].
Qed.

Lemma initializeOptimization_fails_without_mutation_witness :
  initializeOptimization_eset ex_graph [mkEdge 12 0 [1; 9]%Z] = (false, ex_graph).
Proof.
  apply (proj1 (initializeOptimization_fails_without_mutation ex_graph
                  [mkEdge 12 0 [1; 9]%Z] [] 0)).
  left. apply Exists_cons_hd. apply Exists_cons_tl, Exists_cons_hd. reflexivity.
Defined.

(** ** Estimate stack *)

Lemma lookup_foldl_alter (f : Vertex → Vertex) (l : list Z) (m : gmap Z Vertex) (v : Z) :
  foldl (λ m w, alter f w m) m l !! v = Nat.iter (length (filter (λ w, w = v) l)) f <$> m !! v.
Proof.
  revert m. induction l as [|w l IH]; intros m; simpl.
  - by destruct (m !! v).
  - rewrite IH, lookup_alter, filter_cons. destruct (decide (w = v)) as [->|Hne]; simpl.
    + destruct (m !! v); simpl; [|done]. by rewrite <- Nat.iter_succ_r.
    + done.
Qed.

Lemma lookup_for_each_vertex (f : Vertex → Vertex) (l : list Z) (o : SparseOptimizer) (v : Z) :
  _vertices (for_each_vertex f l o) !! v =
  Nat.iter (length (filter (λ w, w = v) l)) f <$> _vertices o !! v.
Proof. apply lookup_foldl_alter. Qed.

Lemma filter_eq_absent (l : list Z) (v : Z) : v ∉ l → filter (λ w, w = v) l = [].
Proof.
  induction l as [|w l IH]; intros Hv; [done|]. rewrite filter_cons.
  destruct (decide (w = v)) as [->|_]; [by destruct Hv; left|].
  apply IH. intros ?. apply Hv. by right.
Qed.

Lemma filter_eq_once (l : list Z) (v : Z) :
  NoDup l → v ∈ l → length (filter (λ w, w = v) l) = 1%nat.
Proof.
  induction l as [|w l IH]; intros Hnd Hv; [by apply not_elem_of_nil in Hv|].
  apply NoDup_cons in Hnd as [Hw Hnd]. rewrite filter_cons.
  destruct (decide (w = v)) as [->|Hne].
  - by rewrite filter_eq_absent.
  - apply IH; [done|]. apply elem_of_cons in Hv as [->|?]; [done|done].
Qed.

Lemma filter_eq_present (l : list Z) (v : Z) :
  v ∈ l → ∃ k, length (filter (λ w, w = v) l) = S k.
Proof.
  intros Hv. assert (Hf : v ∈ filter (λ w, w = v) l) by (by apply list_elem_of_filter).
  destruct (filter (λ w, w = v) l) as [|x r]; [by apply not_elem_of_nil in Hf|].
  by exists (length r).
Qed.

Lemma iter_push_vertex (k : nat) (vr : Vertex) :
  Nat.iter k push_vertex vr = set_stack (replicate k (v_estimate vr) ++ v_stack vr) vr.
Proof.
  induction k as [|k IH]; simpl; [by destruct vr|].
  rewrite IH. by destruct vr.
Qed.

Lemma iter_pop_vertex_restore (k : nat) (vr : Vertex) (e : list Z) (s : list (list Z)) :
  v_stack vr = replicate (S k) e ++ s →
  Nat.iter (S k) pop_vertex vr = set_stack s (set_estimate e vr).
Proof.
  revert vr. induction k as [|k IH]; intros vr Hs.
  - simpl. unfold pop_vertex. by rewrite Hs.
  - rewrite Nat.iter_succ_r, (IH (pop_vertex vr)).
    + unfold pop_vertex. rewrite Hs. by destruct vr.
    + unfold pop_vertex. rewrite Hs. done.
Qed.

Lemma iter_pop_vertex_empty (k : nat) (vr : Vertex) :
  v_stack vr = [] → Nat.iter k pop_vertex vr = vr.
Proof.
  intros Hs. induction k as [|k IH]; [done|]. simpl. rewrite IH. unfold pop_vertex. by rewrite Hs.
Qed.

Lemma iter_discardTop_push (k : nat) (vr : Vertex) :
  Nat.iter k discardTop_vertex (Nat.iter k push_vertex vr) = vr.
Proof.
  induction k as [|k IH]; [done|].
  change (Nat.iter (S k) push_vertex vr) with (push_vertex (Nat.iter k push_vertex vr)).
  rewrite Nat.iter_succ_r.
  assert (Hdp : ∀ x, discardTop_vertex (push_vertex x) = x) by (intros []; done).
  by rewrite Hdp.
Qed.

Lemma update_from_stacks (iv : list Z) (m : gmap Z Vertex) (dx : list Z) (v : Z) :
  v_stack <$> update_from m iv dx !! v = v_stack <$> m !! v.
Proof.
  revert m dx. induction iv as [|w iv IH]; intros m dx; simpl; [done|].
  destruct (m !! w) as [vr|] eqn:Hw; rewrite IH; [|done].
  rewrite lookup_insert. case_decide; subst; [|done]. by rewrite Hw.
Qed.

Lemma with_vertices_self (o : SparseOptimizer) : with_vertices (_vertices o) o = o.
Proof. by destruct o. Qed.

(** [C3] For every vertex subset [S] and every increment [dx],
    [push(S); update(dx); pop(S)] gives back, for each vertex of [S], the
    estimate it had before the push. *)
Theorem push_update_pop_restores (o : SparseOptimizer) (S : list Z) (dx : list Z) (v : Z)
    (Hv : v ∈ S) :
  estimate_of (pop S (update dx (push S o))) v = estimate_of o v.
Proof.
  destruct (filter_eq_present S v Hv) as [k Hk].
  unfold estimate_of, pop. rewrite lookup_for_each_vertex, Hk.
  pose proof (update_from_stacks (_ivMap (push S o)) (_vertices (push S o)) dx v) as Hst.
  unfold update. simpl. unfold push in Hst |- *.
  rewrite lookup_for_each_vertex, Hk in Hst.
  destruct (_vertices o !! v) as [vr|] eqn:Hvr; simpl in Hst.
  - destruct (update_from _ _ dx !! v) as [vr2|]; simpl in Hst; [|discriminate].
    injection Hst as Hst. rewrite iter_push_vertex in Hst. simpl in Hst.
    pose proof (iter_pop_vertex_restore k vr2 (v_estimate vr) (v_stack vr)) as Hr.
    simpl in Hr |- *. rewrite Hr; [done|]. rewrite Hst. done.
  - by destruct (update_from _ _ dx !! v).
Qed.

Lemma push_update_pop_restores_witness :
  (3%Z ∈ [3; 1]%Z) ∧
  estimate_of (pop [3; 1]%Z (update [7; 8]%Z (push [3; 1]%Z ex_optimizer))) 3%Z
  = estimate_of ex_optimizer 3%Z.
Proof.
  split; [by left|].
  apply (push_update_pop_restores ex_optimizer [3; 1]%Z [7; 8]%Z 3%Z). by left.
Defined.

(** [C4] [discardTop(S)] right after [push(S)] gives back the optimizer
    exactly as it was: every estimate is unchanged and every estimate
    stack has its depth from before the push; for a vertex subset [S] (no
    duplicates) the push added exactly one level to the stack of each of
    its vertices, which [discardTop] removes. *)
Theorem discardTop_after_push (o : SparseOptimizer) (S : list Z) (v : Z)
    (Hnd : NoDup S) (Hv : v ∈ S) :
  discardTop S (push S o) = o ∧
  estimate_of (discardTop S (push S o)) v = estimate_of o v ∧
  stack_depth (push S o) v = Datatypes.S <$> stack_depth o v ∧
  stack_depth (discardTop S (push S o)) v = stack_depth o v.
Proof.
  assert (Hid : discardTop S (push S o) = o).
  { assert (Hm : _vertices (discardTop S (push S o)) = _vertices o).
    { apply map_eq. intros w. unfold discardTop. rewrite lookup_for_each_vertex.
      unfold push. rewrite lookup_for_each_vertex.
      destruct (_vertices o !! w); simpl; [|done]. by rewrite iter_discardTop_push. }
    transitivity (with_vertices (_vertices (discardTop S (push S o))) o); [reflexivity|].
    rewrite Hm. apply with_vertices_self. }
  split; [done|]. rewrite Hid. split; [done|]. split; [|done].
  unfold stack_depth, push. rewrite lookup_for_each_vertex, filter_eq_once by done.
  destruct (_vertices o !! v); done.
Qed.

Lemma discardTop_after_push_witness :
  NoDup [3; 1]%Z ∧ 3%Z ∈ [3; 1]%Z ∧
  stack_depth (push [3; 1]%Z ex_optimizer) 3%Z = Some 1%nat.
Proof.
  split; [apply (bool_decide_unpack (NoDup [3; 1]%Z)); vm_compute; exact I|].
  split; [by left|].
  rewrite (proj1 (proj2 (proj2 (discardTop_after_push ex_optimizer [3; 1]%Z 3%Z
             ltac:(apply (bool_decide_unpack (NoDup [3; 1]%Z)); vm_compute; exact I)
             ltac:(by left))))).
  reflexivity.
Defined.

(** [C9] [pop(S)] leaves a vertex of [S] whose estimate stack is empty
    exactly as it was (no failure is signalled: [pop] returns nothing),
    restores a vertex of a subset [S] with a non-empty stack from its top
    snapshot, and does not touch vertices outside [S]. *)
Theorem pop_empty_stack_noop (o : SparseOptimizer) (S : list Z) (v : Z) (Hv : v ∈ S) :
  (∀ vr, _vertices o !! v = Some vr → v_stack vr = [] →
     _vertices (pop S o) !! v = Some vr) ∧
  (NoDup S → ∀ vr x s, _vertices o !! v = Some vr → v_stack vr = x :: s →
     _vertices (pop S o) !! v = Some (set_stack s (set_estimate x vr))) ∧
  (∀ w, w ∉ S → _vertices (pop S o) !! w = _vertices o !! w).
Proof.
  unfold pop. split; [|split].
  - intros vr Hvr Hs. rewrite lookup_for_each_vertex, Hvr. simpl.
    by rewrite iter_pop_vertex_empty.
  - intros Hnd vr x s Hvr Hs. rewrite lookup_for_each_vertex, Hvr, filter_eq_once by done.
    simpl. unfold pop_vertex. by rewrite Hs.
  - intros w Hw. rewrite lookup_for_each_vertex, filter_eq_absent by done. simpl.
    by destruct (_vertices o !! w).
Qed.

Lemma pop_empty_stack_noop_witness :
  3%Z ∈ [3; 1]%Z ∧ _vertices (pop [3; 1]%Z ex_optimizer) !! 3%Z = _vertices ex_optimizer !! 3%Z.
Proof.
  split; [by left|].
  rewrite (proj1 (pop_empty_stack_noop ex_optimizer [3; 1]%Z 3%Z ltac:(by left))
             (default (ex_vertex false) (_vertices ex_optimizer !! 3%Z)));
    reflexivity.
Defined.

(** ** Cached Active Error *)

(** [C5] Two calls of [computeActiveErrors()] with no change of the graph's
    vertices (hence of their estimates) or of the active edges in between
    give the same Cached Active Error; in particular two calls in a row. *)
Theorem computeActiveErrors_idempotent `{EdgeModel} (o o1 : SparseOptimizer)
    (Hv : _vertices o1 = _vertices (computeActiveErrors o))
    (He : _activeEdges o1 = _activeEdges (computeActiveErrors o)) :
  activeChi2 (computeActiveErrors o1) = activeChi2 (computeActiveErrors o) ∧
  activeChi2 (computeActiveErrors (computeActiveErrors o)) = activeChi2 (computeActiveErrors o).
Proof.
  split; [|reflexivity].
  unfold activeChi2, computeActiveErrors at 1. simpl. rewrite Hv, He. reflexivity.
Qed.

Lemma computeActiveErrors_idempotent_witness :
  activeChi2 (computeActiveErrors (computeActiveErrors ex_optimizer))
  = activeChi2 (computeActiveErrors ex_optimizer).
Proof.
  apply (computeActiveErrors_idempotent ex_optimizer (computeActiveErrors ex_optimizer));
    reflexivity.
Defined.

(** ** Force-stop flag *)

(** [C10] [terminate()] is [false] when no flag is installed (null
    pointer), the flag's current value otherwise, and it never dereferences
    a null pointer. *)
Theorem terminate_spec (mem : gmap loc bool) (o : SparseOptimizer) :
  (_forceStopFlag o = None → terminate mem o = inr false) ∧
  (∀ l b, _forceStopFlag o = Some l → mem !! l = Some b → terminate mem o = inr b) ∧
  terminate mem o ≠ inl NullDereference.
Proof.
  unfold terminate. destruct (_forceStopFlag o) as [l|]; simpl.
  - split; [done|]. split.
    + intros l' b Hl Hb. injection Hl as <-. by rewrite Hb.
    + by destruct (mem !! l).
  - done.
Qed.

Lemma terminate_spec_witness :
  terminate {[0%Z := true]} (setForceStopFlag (Some 0%Z) ex_optimizer) = inr true ∧
  terminate ∅ ex_optimizer = inr false.
Proof.
  split.
  - apply (proj1 (proj2 (terminate_spec {[0%Z := true]} (setForceStopFlag (Some 0%Z) ex_optimizer)))
             0%Z true); reflexivity.
  - apply (proj1 (terminate_spec ∅ ex_optimizer)). reflexivity.
Defined.

(** ** Marginals *)

(** [C8] Against a strategy without marginal-block extraction,
    [computeMarginals] fails and returns the output matrix unchanged, for
    every requested pattern. *)
Theorem computeMarginals_unsupported (alg : OptimizationAlgorithm) (spinv : BlockMatrix)
    (blockIndices : list (Z * Z)) (Hcap : alg_computeMarginals alg = None) :
  computeMarginals alg spinv blockIndices = (false, spinv).
Proof. unfold computeMarginals. by rewrite Hcap. Qed.

Lemma computeMarginals_unsupported_witness :
  computeMarginals zero_algorithm {[(0, 0)%Z := [1%Z]]} [(0, 0)%Z; (1, 1)%Z]
  = (false, {[(0, 0)%Z := [1%Z]]}).
Proof. apply computeMarginals_unsupported. reflexivity. Defined.

(** ** Optimization driver *)

Lemma vadd_zero (x dx : list Z) : Forall (λ d, d = 0%Z) dx → vadd x dx = x.
Proof.
  revert dx. induction x as [|a x IH]; intros dx Hz; [by destruct dx|].
  destruct dx as [|d dx]; [done|]. apply Forall_cons in Hz as [-> Hz]. simpl.
  rewrite IH by done. f_equal. lia.
Qed.

Lemma update_from_zero (iv : list Z) (m : gmap Z Vertex) (dx : list Z) :
  Forall (λ d, d = 0%Z) dx → update_from m iv dx = m.
Proof.
  revert m dx. induction iv as [|v iv IH]; intros m dx Hz; simpl; [done|].
  destruct (m !! v) as [vr|] eqn:Hv; [|by apply IH].
  rewrite IH by (by apply Forall_drop).
  rewrite vadd_zero by (by apply Forall_take).
  apply insert_id. rewrite Hv. by destruct vr.
Qed.

Lemma optimize_iteration_flag `{EdgeModel} (alg : OptimizationAlgorithm) (online : bool)
    (i : nat) (o : SparseOptimizer) :
  _forceStopFlag (snd (optimize_iteration alg online i o)) = _forceStopFlag o.
Proof.
  unfold optimize_iteration. destruct (alg_solve _ _ _ _) as [[] dx]; [|done|done].
  by destruct online.
Qed.

Lemma optimize_iteration_zero `{EdgeModel} (alg : OptimizationAlgorithm) (online : bool)
    (i : nat) (o : SparseOptimizer)
    (Hz : ∀ j on o', fst (alg_solve alg j on o') = SolverOK ∧
                     Forall (λ d, d = 0%Z) (snd (alg_solve alg j on o'))) :
  fst (optimize_iteration alg online i o) = SolverOK ∧
  _vertices (snd (optimize_iteration alg online i o)) = _vertices o.
Proof.
  unfold optimize_iteration.
  destruct (Hz i online (linearizeSystem (computeActiveErrors o))) as [Hok Hdx].
  destruct (alg_solve _ _ _ _) as [r dx]. simpl in Hok, Hdx. subst r.
  split; [done|]. destruct online; simpl; by rewrite update_from_zero.
Qed.

Lemma terminate_same_flag (mem : gmap loc bool) (o o' : SparseOptimizer) :
  _forceStopFlag o' = _forceStopFlag o → terminate mem o' = terminate mem o.
Proof. intros Hf. unfold terminate. by rewrite Hf. Qed.

Lemma optimize_loop_zero `{EdgeModel} (alg : OptimizationAlgorithm) (online : bool)
    (mem : nat → gmap loc bool)
    (Hz : ∀ j on o', fst (alg_solve alg j on o') = SolverOK ∧
                     Forall (λ d, d = 0%Z) (snd (alg_solve alg j on o'))) :
  ∀ fuel i o, (∀ j, (i ≤ j < i + fuel)%nat → terminate (mem j) o = inr false) →
  ∃ o', optimize_loop alg online mem fuel i o = inr ((i + fuel)%nat, o') ∧
        _vertices o' = _vertices o ∧ _forceStopFlag o' = _forceStopFlag o.
Proof.
  induction fuel as [|fuel IH]; intros i o Hterm.
  - exists o. rewrite Nat.add_0_r. done.
  - simpl. rewrite (Hterm i) by lia.
    destruct (optimize_iteration_zero alg online i o Hz) as [Hok Hv].
    pose proof (optimize_iteration_flag alg online i o) as Hf.
    destruct (optimize_iteration alg online i o) as [r o1]. simpl in Hok, Hv, Hf. subst r.
    destruct (IH (Datatypes.S i) o1) as (o' & Hl & Hv' & Hf').
    + intros j Hj. rewrite (terminate_same_flag _ o o1 Hf). apply Hterm. lia.
    + exists o'. rewrite Hl. split; [f_equal; f_equal; lia|]. split; congruence.
Qed.

(** [C6] (as amended) With a strategy that always reports success and
    returns an all-zero increment, and with no force stop raised (no flag
    installed, or the flag reads false at each poll), [optimize(N)] for
    [N >= 0] executes exactly [N] iterations and leaves the graph's vertices,
    hence every estimate, unchanged. *)
Theorem optimize_zero_increment `{EdgeModel} (alg : OptimizationAlgorithm) (N : Z)
    (online : bool) (mem : nat → gmap loc bool) (o : SparseOptimizer)
    (HN : (0 ≤ N)%Z)
    (Hz : ∀ j on o', fst (alg_solve alg j on o') = SolverOK ∧
                     Forall (λ d, d = 0%Z) (snd (alg_solve alg j on o')))
    (Hnostop : ∀ j, (j < Z.to_nat N)%nat → terminate (mem j) o = inr false) :
  ∃ o', optimize alg N online mem o = inr (N, o') ∧
        _vertices o' = _vertices o ∧ (∀ v, estimate_of o' v = estimate_of o v).
Proof.
  destruct (optimize_loop_zero alg online mem Hz (Z.to_nat N) 0 o) as (o' & Hl & Hv & _).
  { intros j Hj. apply Hnostop. lia. }
  exists o'. unfold optimize. rewrite Hl. split; [f_equal; f_equal; lia|].
  split; [done|]. intros v. unfold estimate_of. by rewrite Hv.
Qed.

Lemma zero_algorithm_zero (j : nat) (on : bool) (o' : SparseOptimizer) :
  fst (alg_solve zero_algorithm j on o') = SolverOK ∧
  Forall (λ d, d = 0%Z) (snd (alg_solve zero_algorithm j on o')).
Proof. split; [done|]. simpl. by apply Forall_replicate. Qed.

Lemma optimize_zero_increment_witness :
  ∃ o', optimize zero_algorithm 4 false (λ _, ∅) ex_optimizer = inr (4%Z, o') ∧
        _vertices o' = _vertices ex_optimizer ∧
        (∀ v, estimate_of o' v = estimate_of ex_optimizer v).
Proof.
  apply (optimize_zero_increment zero_algorithm 4 false (λ _, ∅) ex_optimizer).
  - lia.
  - apply zero_algorithm_zero.
  - intros j _. reflexivity.
Defined.

(** [C6] counterexample: the same all-zero, always-successful strategy, but
    the caller's stop flag reads true at the first poll: [optimize(3)]
    executes no iteration and returns 0. *)
Lemma optimize_zero_increment_stopped :
  (∀ j on o', fst (alg_solve zero_algorithm j on o') = SolverOK ∧
              Forall (λ d, d = 0%Z) (snd (alg_solve zero_algorithm j on o'))) ∧
  optimize zero_algorithm 3 false (λ _, {[0%Z := true]}) (setForceStopFlag (Some 0%Z) ex_optimizer)
  = inr (0%Z, setForceStopFlag (Some 0%Z) ex_optimizer).
Proof. split; [apply zero_algorithm_zero|reflexivity]. Qed.

(** [C7] When the flag is installed, reads false at the first poll and
    true at the second, [optimize(5)] returns 1, and the optimizer it leaves
    is the one after the first iteration: the increment applied there is
    kept, not rolled back. *)
Theorem optimize_force_stop_after_first `{EdgeModel} (alg : OptimizationAlgorithm)
    (online : bool) (mem : nat → gmap loc bool) (o : SparseOptimizer) (l : loc)
    (Hflag : _forceStopFlag o = Some l)
    (H0 : mem 0%nat !! l = Some false) (H1 : mem 1%nat !! l = Some true) :
  optimize alg 5 online mem o = inr (1%Z, snd (optimize_iteration alg online 0 o)) ∧
  (∀ dx, alg_solve alg 0 online (linearizeSystem (computeActiveErrors o)) = (SolverOK, dx) →
     ∀ v, estimate_of (snd (optimize_iteration alg online 0 o)) v =
          estimate_of (update dx (linearizeSystem (computeActiveErrors o))) v).
Proof.
  split.
  - unfold optimize. simpl.
    replace (terminate (mem 0%nat) o) with (inr (A := Fault) false)
      by (unfold terminate; rewrite Hflag; simpl; by rewrite H0).
    pose proof (optimize_iteration_flag alg online 0 o) as Hf.
    destruct (optimize_iteration alg online 0 o) as [r o1]. simpl in Hf |- *.
    destruct r; [|done|done].
    replace (terminate (mem 1%nat) o1) with (inr (A := Fault) true)
      by (unfold terminate; rewrite Hf, Hflag; simpl; by rewrite H1).
    done.
  - intros dx Hs v. unfold optimize_iteration. rewrite Hs.
    destruct online; [done|]. reflexivity.
Qed.

Lemma optimize_force_stop_after_first_witness :
  optimize unit_algorithm 5 false ex_stop_after_first (setForceStopFlag (Some 0%Z) ex_optimizer)
  = inr (1%Z, snd (optimize_iteration unit_algorithm false 0
                     (setForceStopFlag (Some 0%Z) ex_optimizer))).
Proof.
  apply (optimize_force_stop_after_first unit_algorithm false ex_stop_after_first
           (setForceStopFlag (Some 0%Z) ex_optimizer) 0%Z); reflexivity.
Defined.
